(** * The CSS selector builder of [05-objects-tasks.js]

    A shallow embedding of the [Selector] class and of the
    [cssSelectorBuilder] facade, with the properties of its design. *)

From Stdlib Require Import ZArith String List Lia.
From stdpp Require Import gmap strings sorting.

Local Open Scope string_scope.
Local Open Scope list_scope.
Local Open Scope Z_scope.

(** ** Values, heap and the monad of JavaScript computations *)

(** The object literal [{ selector, value }] kept in a selector's storage. *)
Record part : Type := Part { selector : string; value : string }.

(** A reference to a [Selector] instance. *)
Abbreviation loc := positive.

(** The store: each live [Selector] instance with its [selectorsStorage]. *)
Abbreviation heap := (gmap loc (list part)).

(** What a [throw] carries: [new Error(message)], or the [TypeError] the
    engine raises when a property of [undefined] is read. *)
Inductive exn : Type :=
| Error (message : string)
| TypeError.

Inductive completion (A : Type) : Type :=
| Normal (a : A)
| Throw (e : exn).
Arguments Normal {A} a.
Arguments Throw {A} e.

(** A computation reads and writes the store; a [throw] keeps the writes
    made before it. *)
Definition JS (A : Type) : Type := heap -> completion A * heap.

Definition ret {A} (a : A) : JS A := fun h => (Normal a, h).

Definition throw {A} (e : exn) : JS A := fun h => (Throw e, h).

Definition bind {A B} (m : JS A) (k : A -> JS B) : JS B :=
  fun h =>
    match m h with
    | (Normal a, h') => k a h'
    | (Throw e, h') => (Throw e, h')
    end.

#[global] Instance JS_ret : MRet JS := @ret.
#[global] Instance JS_bind : MBind JS := fun A B k m => bind m k.

(** [this.selectorsStorage], read. *)
Definition getStorage (this : loc) : JS (list part) :=
  fun h =>
    match h !! this with
    | Some storage => (Normal storage, h)
    | None => (Throw TypeError, h)
    end.

(** [this.selectorsStorage.push(obj)]. *)
Definition push (this : loc) (obj : part) : JS unit :=
  fun h =>
    match h !! this with
    | Some storage => (Normal tt, <[this := storage ++ [obj]]> h)
    | None => (Throw TypeError, h)
    end.

(** [Array.prototype.indexOf]: the first index holding [x], or [-1]. *)
Fixpoint indexOf_from (l : list string) (x : string) (i : Z) : Z :=
  match l with
  | [] => -1
  | y :: l' => if String.eqb y x then i else indexOf_from l' x (i + 1)
  end.

Definition indexOf (l : list string) (x : string) : Z := indexOf_from l x 0.

(** ** class Selector *)

Module Selector.

(** [new Selector(obj)]: a fresh instance whose storage is [[obj]]. *)
Definition constructor (obj : part) : JS loc :=
  fun h =>
    let this := fresh (dom h) in
    (Normal this, <[this := [obj]]> h).

Definition selectorsOrder : list string :=
  ["element"; "id"; "class"; "attr"; "pseudoClass"; "pseudoElement"].

Definition check (selector' : string) (this : loc) : JS unit :=
  (if String.eqb selector' "element" || String.eqb selector' "id"
      || String.eqb selector' "pseudoElement"
   then
     storage ← getStorage this;
     let isExist :=
       (0 <? Z.of_nat (length
          (List.filter (fun item => String.eqb (selector item) selector') storage))) in
     if isExist
     then throw (Error "Element, id and pseudo-element should not occur more then one time inside the selector")
     else ret tt
   else ret tt) ;;
  storage ← getStorage this;
  match last storage with
  | None => throw TypeError
  | Some lastPart =>
      let lastElem := selector lastPart in
      if indexOf selectorsOrder selector' <? indexOf selectorsOrder lastElem
      then throw (Error "Selector parts should be arranged in the following order: element, id, class, attribute, pseudo-class, pseudo-element")
      else ret tt
  end.

Definition element (value : string) (this : loc) : JS loc :=
  check "element" this ;;
  push this {| selector := "element"; value := value |} ;;
  ret this.

Definition id (value : string) (this : loc) : JS loc :=
  check "id" this ;;
  push this {| selector := "id"; value := value |} ;;
  ret this.

Definition class (value : string) (this : loc) : JS loc :=
  check "class" this ;;
  push this {| selector := "class"; value := value |} ;;
  ret this.

Definition attr (value : string) (this : loc) : JS loc :=
  check "attr" this ;;
  push this {| selector := "attr"; value := value |} ;;
  ret this.

Definition pseudoClass (value : string) (this : loc) : JS loc :=
  check "pseudoClass" this ;;
  push this {| selector := "pseudoClass"; value := value |} ;;
  ret this.

Definition pseudoElement (value : string) (this : loc) : JS loc :=
  check "pseudoElement" this ;;
  push this {| selector := "pseudoElement"; value := value |} ;;
  ret this.

(** The body of the [forEach] callback: one [switch] on [item.selector]. *)
Definition stringify_item (string : String.string) (item : part) : String.string :=
  let s := selector item in
  if String.eqb s "id" then string +:+ ("#" +:+ value item)
  else if String.eqb s "class" then string +:+ ("." +:+ value item)
  else if String.eqb s "attr" then string +:+ ("[" +:+ value item +:+ "]")
  else if String.eqb s "pseudoClass" then string +:+ (":" +:+ value item)
  else if String.eqb s "pseudoElement" then string +:+ ("::" +:+ value item)
  else string +:+ value item.

Definition stringify (this : loc) : JS string :=
  storage ← getStorage this;
  ret (fold_left stringify_item storage "").

End Selector.

(** ** The facade: const cssSelectorBuilder *)

(** What [combine] accepts and returns: a [Selector] instance, or the object
    literal built by [combine], whose [stringify] closes over the three
    arguments. *)
Inductive renderable : Type :=
| Sel (this : loc)
| Combined (selector1 : renderable) (combinator : string) (selector2 : renderable).

(** [r.stringify()], dispatched on what [r] is; the template literal of a
    combined object renders [selector1] first, then [selector2]. *)
Fixpoint stringify (r : renderable) : JS string :=
  match r with
  | Sel this => Selector.stringify this
  | Combined selector1 combinator selector2 =>
      s1 ← stringify selector1;
      s2 ← stringify selector2;
      ret (s1 +:+ " " +:+ combinator +:+ " " +:+ s2)
  end.

Module cssSelectorBuilder.

Definition element (value : string) : JS loc :=
  Selector.constructor {| selector := "element"; value := value |}.

Definition id (value : string) : JS loc :=
  Selector.constructor {| selector := "id"; value := value |}.

Definition class (value : string) : JS loc :=
  Selector.constructor {| selector := "class"; value := value |}.

Definition attr (value : string) : JS loc :=
  Selector.constructor {| selector := "attr"; value := value |}.

Definition pseudoClass (value : string) : JS loc :=
  Selector.constructor {| selector := "pseudoClass"; value := value |}.

Definition pseudoElement (value : string) : JS loc :=
  Selector.constructor {| selector := "pseudoElement"; value := value |}.

Definition combine (selector1 : renderable) (combinator : string)
    (selector2 : renderable) : JS renderable :=
  ret (Combined selector1 combinator selector2).

End cssSelectorBuilder.

(** ** Part kinds and calls by kind *)

(** The six kinds of part, one per method of the class and of the facade. *)
Inductive kind : Type :=
| Element | Id | Class | Attribute | PseudoClass | PseudoElement.

#[global] Instance kind_eq_dec : EqDecision kind.
Proof. solve_decision. Defined.

(** The string that tags a part of the kind in the storage. *)
Definition tag (k : kind) : string :=
  match k with
  | Element => "element"
  | Id => "id"
  | Class => "class"
  | Attribute => "attr"
  | PseudoClass => "pseudoClass"
  | PseudoElement => "pseudoElement"
  end.

(** The kinds that may occur once only. *)
Definition once (k : kind) : bool :=
  match k with
  | Element | Id | PseudoElement => true
  | _ => false
  end.

(** The rank of a kind in element < id < class < attribute < pseudoClass <
    pseudoElement. *)
Definition rank (k : kind) : Z :=
  match k with
  | Element => 0
  | Id => 1
  | Class => 2
  | Attribute => 3
  | PseudoClass => 4
  | PseudoElement => 5
  end.

(** The part-adder of a kind: the method of the class. *)
Definition add (k : kind) : string -> loc -> JS loc :=
  match k with
  | Element => Selector.element
  | Id => Selector.id
  | Class => Selector.class
  | Attribute => Selector.attr
  | PseudoClass => Selector.pseudoClass
  | PseudoElement => Selector.pseudoElement
  end.

(** The constructor of a kind: the method of the facade. *)
Definition create (k : kind) : string -> JS loc :=
  match k with
  | Element => cssSelectorBuilder.element
  | Id => cssSelectorBuilder.id
  | Class => cssSelectorBuilder.class
  | Attribute => cssSelectorBuilder.attr
  | PseudoClass => cssSelectorBuilder.pseudoClass
  | PseudoElement => cssSelectorBuilder.pseudoElement
  end.

(** A chain [this.k1(v1).k2(v2)...] of part-adders. *)
Fixpoint add_all (calls : list (kind * string)) (this : loc) : JS loc :=
  match calls with
  | [] => ret this
  | (k, v) :: calls' => this' ← add k v this; add_all calls' this'
  end.

(** A whole chain [cssSelectorBuilder.k0(v0).k1(v1)...]. *)
Definition chain (k0 : kind) (v0 : string) (calls : list (kind * string)) : JS loc :=
  this ← create k0 v0; add_all calls this.

(** The two errors of [check], as [Selector.check] throws them. *)
Definition DuplicateSelectorPart : exn :=
  Error "Element, id and pseudo-element should not occur more then one time inside the selector".

Definition OutOfOrderSelectorPart : exn :=
  Error "Selector parts should be arranged in the following order: element, id, class, attribute, pseudo-class, pseudo-element".

(** ** Definitions used to state the properties *)

(** [check] on a given storage, as a pure function: the outcome of the two
    tests in the order in which the method runs them. *)
Definition check_result (sel : string) (storage : list part) : completion unit :=
  if (String.eqb sel "element" || String.eqb sel "id" || String.eqb sel "pseudoElement")
     && (0 <? Z.of_nat (length
           (List.filter (fun item => String.eqb (selector item) sel) storage)))
  then Throw DuplicateSelectorPart
  else
    match last storage with
    | None => Throw TypeError
    | Some lastPart =>
        if indexOf Selector.selectorsOrder sel
           <? indexOf Selector.selectorsOrder (selector lastPart)
        then Throw OutOfOrderSelectorPart
        else Normal tt
    end.

(** The storage holds a part of kind [k]. *)
Definition contains (k : kind) (storage : list part) : Prop :=
  exists v, Part (tag k) v ∈ storage.

(** The token of a part, as the builder's documentation gives it:
    element -> value, id -> #value, class -> .value, attribute -> [value],
    pseudo-class -> :value, pseudo-element -> ::value. *)
Definition token (k : kind) (v : string) : string :=
  match k with
  | Element => v
  | Id => "#" +:+ v
  | Class => "." +:+ v
  | Attribute => "[" +:+ v +:+ "]"
  | PseudoClass => ":" +:+ v
  | PseudoElement => "::" +:+ v
  end.

(** The part a call of kind [k] with value [v] stores. *)
Definition part_of (c : kind * string) : part := Part (tag c.1) c.2.

(** All the instances a renderable refers to are in the store. *)
Fixpoint live (h : heap) (r : renderable) : Prop :=
  match r with
  | Sel this => is_Some (h !! this)
  | Combined selector1 _ selector2 => live h selector1 /\ live h selector2
  end.

(** The stores that calls on the public facade produce, from the empty
    store: constructors, part-adders on live instances (whether they return
    or throw), [combine] and [stringify]. *)
Inductive reachable : heap -> Prop :=
| reach_init : reachable ∅
| reach_create k v h :
    reachable h -> reachable (snd (create k v h))
| reach_add k v this h :
    reachable h -> is_Some (h !! this) -> reachable (snd (add k v this h))
| reach_combine selector1 combinator selector2 h :
    reachable h ->
    reachable (snd (cssSelectorBuilder.combine selector1 combinator selector2 h))
| reach_stringify r h :
    reachable h -> reachable (snd (stringify r h)).

(** A storage as the facade builds them: the parts of at least one call,
    with kinds of non-decreasing rank and at most one element, one id and
    one pseudo-element. *)
Definition well_formed (storage : list part) : Prop :=
  exists calls : list (kind * string),
    calls <> []
    /\ storage = map part_of calls
    /\ Sorted Z.le (map rank (map fst calls))
    /\ forall k, once k = true ->
                 (count_occ kind_eq_dec (map fst calls) k <= 1)%nat.

(** The renderable reaches the instance [this], at some depth. *)
Fixpoint refers (r : renderable) (this : loc) : Prop :=
  match r with
  | Sel l => l = this
  | Combined selector1 _ selector2 => refers selector1 this \/ refers selector2 this
  end.

(** * Properties *)

(** ** What [check] and the part-adders compute on a live instance *)

(** Closes [Sorted Z.le l] on a list of numerals. *)
Ltac solve_sorted :=
  repeat first
    [ apply Sorted_nil | apply HdRel_nil
    | apply Sorted_cons | apply HdRel_cons ];
  lia.

Lemma check_eq sel this (h : heap) storage :
  h !! this = Some storage ->
  Selector.check sel this h = (check_result sel storage, h).
Proof.
  intros Hthis.
  unfold Selector.check, check_result, mbind, JS_bind, bind, getStorage.
  destruct (String.eqb sel "element" || String.eqb sel "id"
            || String.eqb sel "pseudoElement"); cbn [andb].
  - rewrite Hthis.
    destruct (0 <? _); [reflexivity|].
    cbn. rewrite Hthis. destruct (last storage) as [p|]; [|reflexivity].
    destruct (_ <? _); reflexivity.
  - cbn. rewrite Hthis. destruct (last storage) as [p|]; [|reflexivity].
    destruct (_ <? _); reflexivity.
Qed.

Lemma add_eq k v this (h : heap) storage :
  h !! this = Some storage ->
  add k v this h =
    match check_result (tag k) storage with
    | Normal _ => (Normal this, <[this := storage ++ [Part (tag k) v]]> h)
    | Throw e => (Throw e, h)
    end.
Proof.
  intros Hthis.
  destruct k; cbn [add tag];
    unfold Selector.element, Selector.id, Selector.class, Selector.attr,
      Selector.pseudoClass, Selector.pseudoElement, mbind, JS_bind, bind;
    rewrite (check_eq _ _ _ _ Hthis);
    (destruct (check_result _ storage) as [[]|e]; [|reflexivity]);
    unfold push; rewrite Hthis; reflexivity.
Qed.

Lemma create_eq k v (h : heap) :
  create k v h = (Normal (fresh (dom h)), <[fresh (dom h) := [Part (tag k) v]]> h).
Proof. destruct k; reflexivity. Qed.

(** ** Strings *)

Lemma append_nil_r (s : string) : s +:+ "" = s.
Proof.
  induction s as [|c s IH]; [reflexivity|].
  change (String c (s +:+ "") = String c s). now rewrite IH.
Qed.

Lemma append_assoc (s1 s2 s3 : string) : (s1 +:+ s2) +:+ s3 = s1 +:+ (s2 +:+ s3).
Proof.
  induction s1 as [|c s1 IH]; [reflexivity|].
  change (String c ((s1 +:+ s2) +:+ s3) = String c (s1 +:+ (s2 +:+ s3))).
  now rewrite IH.
Qed.

Lemma concat_cons (s : string) (l : list string) :
  String.concat "" (s :: l) = s +:+ String.concat "" l.
Proof.
  destruct l as [|s' l]; cbn [String.concat].
  - now rewrite append_nil_r.
  - reflexivity.
Qed.

(** ** Kinds, tags and ranks *)

Lemma tag_inj k1 k2 : tag k1 = tag k2 -> k1 = k2.
Proof. destruct k1, k2; cbn; intros H; first [reflexivity | discriminate H]. Qed.

Lemma indexOf_tag k : indexOf Selector.selectorsOrder (tag k) = rank k.
Proof. destruct k; reflexivity. Qed.

Lemma once_tag k :
  (String.eqb (tag k) "element" || String.eqb (tag k) "id"
   || String.eqb (tag k) "pseudoElement") = once k.
Proof. destruct k; reflexivity. Qed.

Lemma isExist_true sel (storage : list part) :
  (0 <? Z.of_nat (length
     (List.filter (fun item => String.eqb (selector item) sel) storage))) = true
  <-> exists p, p ∈ storage /\ selector p = sel.
Proof.
  rewrite Z.ltb_lt. split.
  - intros Hlen.
    destruct (List.filter _ storage) as [|p l] eqn:E; [cbn in Hlen; lia|].
    assert (Hin : In p (List.filter (fun item => String.eqb (selector item) sel) storage))
      by (rewrite E; now left).
    apply filter_In in Hin as [Hin Heq].
    exists p. split; [now apply list_elem_of_In | now apply String.eqb_eq].
  - intros (p & Hin & Heq).
    assert (Hf : In p (List.filter (fun item => String.eqb (selector item) sel) storage)).
    { apply filter_In. split; [now apply list_elem_of_In | now apply String.eqb_eq]. }
    destruct (List.filter _ storage); [destruct Hf | cbn [length]; lia].
Qed.

Lemma isExist_contains k (storage : list part) :
  (0 <? Z.of_nat (length
     (List.filter (fun item => String.eqb (selector item) (tag k)) storage))) = true
  <-> contains k storage.
Proof.
  rewrite isExist_true. unfold contains. split.
  - intros ([s v] & Hin & Heq). cbn in Heq. subst s. now exists v.
  - intros (v & Hin). now exists (Part (tag k) v).
Qed.

Lemma contains_snoc k k' v (storage : list part) :
  contains k (storage ++ [Part (tag k') v]) <-> contains k storage \/ k = k'.
Proof.
  unfold contains. split.
  - intros (w & Hin). apply elem_of_app in Hin as [Hin|Hin].
    + left. now exists w.
    + right. apply list_elem_of_singleton in Hin. injection Hin as Ht _.
      now apply tag_inj.
  - intros [(w & Hin)| ->].
    + exists w. apply elem_of_app. now left.
    + exists v. apply elem_of_app. right. now apply list_elem_of_singleton.
Qed.

(** [check] in terms of kinds: the uniqueness test comes first... *)
Lemma check_result_duplicate k (storage : list part) :
  once k = true -> contains k storage ->
  check_result (tag k) storage = Throw DuplicateSelectorPart.
Proof.
  intros Honce Hc. unfold check_result. rewrite once_tag, Honce.
  apply isExist_contains in Hc. now rewrite Hc.
Qed.

(** ... and the ordering test, against the kind [k'] of the last part, second. *)
Lemma check_result_order k k' v' (storage : list part) :
  last storage = Some (Part (tag k') v') ->
  ~ (once k = true /\ contains k storage) ->
  check_result (tag k) storage =
    if rank k <? rank k' then Throw OutOfOrderSelectorPart else Normal tt.
Proof.
  intros Hlast Hnot. unfold check_result.
  rewrite once_tag, Hlast. cbn [selector]. rewrite !indexOf_tag.
  destruct (once k); cbn [andb]; [|reflexivity].
  destruct (0 <? _) eqn:E; [|reflexivity].
  apply isExist_contains in E. exfalso. now apply Hnot.
Qed.

(** ** Rendering *)

Lemma stringify_item_token acc k v :
  Selector.stringify_item acc (Part (tag k) v) = acc +:+ token k v.
Proof. destruct k; reflexivity. Qed.

Lemma fold_stringify_item (calls : list (kind * string)) acc :
  fold_left Selector.stringify_item (map part_of calls) acc
  = acc +:+ String.concat "" (map (fun c => token c.1 c.2) calls).
Proof.
  revert acc. induction calls as [|[k v] calls IH]; intros acc.
  - cbn. now rewrite append_nil_r.
  - cbn [map fold_left]. change (part_of (k, v)) with (Part (tag k) v).
    cbn [fst snd]. rewrite stringify_item_token, IH, concat_cons, append_assoc. reflexivity.
Qed.

Lemma stringify_Sel this (h : heap) storage :
  h !! this = Some storage ->
  stringify (Sel this) h = (Normal (fold_left Selector.stringify_item storage ""), h).
Proof.
  intros Hthis. cbn [stringify].
  unfold Selector.stringify, mbind, JS_bind, bind, getStorage.
  now rewrite Hthis.
Qed.

(** ** Chains of part-adders *)

Lemma add_all_ok (calls : list (kind * string)) :
  forall (h : heap) this storage k' v',
    h !! this = Some storage ->
    last storage = Some (Part (tag k') v') ->
    Sorted Z.le (rank k' :: map rank (map fst calls)) ->
    (forall k, once k = true -> contains k storage ->
               count_occ kind_eq_dec (map fst calls) k = 0%nat) ->
    (forall k, once k = true ->
               (count_occ kind_eq_dec (map fst calls) k <= 1)%nat) ->
    add_all calls this h
    = (Normal this, <[this := storage ++ map part_of calls]> h).
Proof.
  induction calls as [|[k v] calls IH]; intros h this storage k' v' Hthis Hlast Hs Hc Ho.
  - cbn. rewrite app_nil_r. now rewrite insert_id.
  - cbn [add_all]. unfold mbind, JS_bind, bind.
    cbn [map fst] in Hs, Hc, Ho.
    apply Sorted_inv in Hs as [Hs Hhd]. apply HdRel_inv in Hhd.
    rewrite (add_eq _ _ _ _ _ Hthis).
    rewrite (check_result_order k k' v' storage Hlast).
    2:{ intros [Honce Hin]. specialize (Hc k Honce Hin).
        rewrite count_occ_cons_eq in Hc by reflexivity. discriminate Hc. }
    destruct (rank k <? rank k') eqn:E; [apply Z.ltb_lt in E; lia|].
    rewrite (IH _ this (storage ++ [Part (tag k) v]) k v).
    + rewrite insert_insert_eq. cbn [map].
      change (part_of (k, v)) with (Part (tag k) v).
      now rewrite <- app_assoc.
    + apply lookup_insert_eq.
    + apply last_snoc.
    + exact Hs.
    + intros k1 Honce Hin. apply contains_snoc in Hin as [Hin| ->].
      * specialize (Hc k1 Honce Hin).
        destruct (decide (k = k1)) as [->|Hne].
        -- rewrite count_occ_cons_eq in Hc by reflexivity. discriminate Hc.
        -- now rewrite count_occ_cons_neq in Hc.
      * specialize (Ho k Honce).
        rewrite count_occ_cons_eq in Ho by reflexivity. lia.
    + intros k1 Honce. specialize (Ho k1 Honce).
      destruct (decide (k = k1)) as [->|Hne].
      * rewrite count_occ_cons_eq in Ho by reflexivity. lia.
      * now rewrite count_occ_cons_neq in Ho.
Qed.

(** C1. Every chain of part additions started from a facade constructor
    whose kind ranks never decrease and which adds at most one element, one
    id and one pseudo-element part runs without a throw, and [stringify()]
    then returns the tokens of the parts, in the order of addition, with no
    separator; in particular
    [id('main').class('container').class('editable').stringify()] is
    ['#main.container.editable']. *)
Theorem chain_stringify :
  (forall k0 v0 (calls : list (kind * string)) (h : heap),
      Sorted Z.le (map rank (k0 :: map fst calls)) ->
      (forall k, once k = true ->
                 (count_occ kind_eq_dec (k0 :: map fst calls) k <= 1)%nat) ->
      exists this h',
        chain k0 v0 calls h = (Normal this, h') /\
        stringify (Sel this) h'
        = (Normal (String.concat "" (map (fun c => token c.1 c.2) ((k0, v0) :: calls))), h'))
  /\ (forall h : heap,
        fst ((this ← chain Id "main" [(Class, "container"); (Class, "editable")];
              stringify (Sel this)) h)
        = Normal "#main.container.editable").
Proof.
  assert (Hgen : forall k0 v0 (calls : list (kind * string)) (h : heap),
      Sorted Z.le (map rank (k0 :: map fst calls)) ->
      (forall k, once k = true ->
                 (count_occ kind_eq_dec (k0 :: map fst calls) k <= 1)%nat) ->
      exists this h',
        chain k0 v0 calls h = (Normal this, h') /\
        stringify (Sel this) h'
        = (Normal (String.concat "" (map (fun c => token c.1 c.2) ((k0, v0) :: calls))), h')).
  { intros k0 v0 calls h Hs Ho.
    set (this := fresh (dom h)).
    exists this, (<[this := map part_of ((k0, v0) :: calls)]> h). split.
    - unfold chain, mbind, JS_bind, bind. rewrite create_eq. fold this.
      rewrite (add_all_ok calls _ this [Part (tag k0) v0] k0 v0).
      + now rewrite insert_insert_eq.
      + apply lookup_insert_eq.
      + reflexivity.
      + exact Hs.
      + intros k Honce (w & Hin). apply list_elem_of_singleton in Hin.
        injection Hin as Ht _. apply tag_inj in Ht. subst k0.
        specialize (Ho k Honce). cbn [map] in Ho.
        rewrite count_occ_cons_eq in Ho by reflexivity. lia.
      + intros k Honce. specialize (Ho k Honce).
        destruct (decide (k0 = k)) as [->|Hne].
        * rewrite count_occ_cons_eq in Ho by reflexivity. lia.
        * now rewrite count_occ_cons_neq in Ho.
    - rewrite (stringify_Sel this _ (map part_of ((k0, v0) :: calls)))
        by apply lookup_insert_eq.
      now rewrite fold_stringify_item. }
  split; [exact Hgen|].
  intros h.
  destruct (Hgen Id "main" [(Class, "container"); (Class, "editable")] h)
    as (this & h' & Hchain & Hstr).
  - cbn. solve_sorted.
  - intros k Honce. destruct k; try discriminate Honce; cbn; lia.
  - unfold mbind, JS_bind, bind. rewrite Hchain, Hstr. reflexivity.
Qed.

Lemma chain_stringify_witness :
  Sorted Z.le (map rank (Element :: map fst [(Attribute, "href"); (PseudoClass, "focus")]))
  /\ exists this h',
      chain Element "a" [(Attribute, "href"); (PseudoClass, "focus")] ∅ = (Normal this, h') /\
      stringify (Sel this) h' = (Normal "a[href]:focus", h').
Proof.
  split; [cbn; solve_sorted|].
  apply (proj1 chain_stringify Element "a" [(Attribute, "href"); (PseudoClass, "focus")] ∅).
  - cbn; solve_sorted.
  - intros k Honce. destruct k; try discriminate Honce; cbn; lia.
Defined.

(** ** The two checks *)

(** C2, as the code has it. On a selector that already holds an element, id
    or pseudo-element part, the part-adder of that kind throws an [Error]
    and leaves the store as it was; its message reads "... more then one
    time ...". *)
Theorem add_duplicate k v this (h : heap) storage :
  h !! this = Some storage ->
  once k = true ->
  contains k storage ->
  add k v this h
  = (Throw (Error "Element, id and pseudo-element should not occur more then one time inside the selector"), h).
Proof.
  intros Hthis Honce Hc.
  rewrite (add_eq _ _ _ _ _ Hthis), (check_result_duplicate _ _ Honce Hc).
  reflexivity.
Qed.

Lemma add_duplicate_witness :
  add Id "b" 1%positive {[ 1%positive := [Part "id" "a"] ]}
  = (Throw (Error "Element, id and pseudo-element should not occur more then one time inside the selector"),
     {[ 1%positive := [Part "id" "a"] ]}).
Proof.
  apply (add_duplicate Id "b" 1%positive _ [Part "id" "a"]).
  - reflexivity.
  - reflexivity.
  - exists "a". apply list_elem_of_singleton. reflexivity.
Defined.

(** C2, counterexample. [id('a').id('b')] throws, but the message of the
    error is not the one with "more than one time". *)
Lemma id_id_message :
  fst (chain Id "a" [(Id, "b")] ∅) = Throw DuplicateSelectorPart
  /\ fst (chain Id "a" [(Id, "b")] ∅)
     <> Throw (Error "Element, id and pseudo-element should not occur more than one time inside the selector").
Proof.
  assert (H : fst (chain Id "a" [(Id, "b")] ∅) = Throw DuplicateSelectorPart)
    by (vm_compute; reflexivity).
  split; [exact H|]. rewrite H. unfold DuplicateSelectorPart. intros Heq.
  discriminate Heq.
Qed.

(** C3, as the code has it. On a selector whose last part has kind [k'],
    a part-adder of a kind of strictly lower rank throws the out-of-order
    [Error] that lists the order of the kinds, unless the kind is element, id
    or pseudo-element and the selector already holds such a part (the
    uniqueness test then throws first); a part-adder of a kind of equal or
    greater rank never throws the out-of-order error. *)
Theorem add_out_of_order k v k' v' this (h : heap) storage :
  h !! this = Some storage ->
  last storage = Some (Part (tag k') v') ->
  (rank k < rank k' ->
   ~ (once k = true /\ contains k storage) ->
   add k v this h
   = (Throw (Error "Selector parts should be arranged in the following order: element, id, class, attribute, pseudo-class, pseudo-element"), h))
  /\ (rank k' <= rank k ->
      fst (add k v this h)
      <> Throw (Error "Selector parts should be arranged in the following order: element, id, class, attribute, pseudo-class, pseudo-element")).
Proof.
  intros Hthis Hlast. rewrite (add_eq _ _ _ _ _ Hthis). split.
  - intros Hlt Hnot.
    rewrite (check_result_order k k' v' storage Hlast Hnot).
    apply Z.ltb_lt in Hlt. rewrite Hlt. reflexivity.
  - intros Hle. unfold check_result. rewrite Hlast. cbn [selector].
    rewrite !indexOf_tag.
    destruct (_ && _).
    + cbn. unfold DuplicateSelectorPart. intros Heq. discriminate Heq.
    + destruct (rank k <? rank k') eqn:E; [apply Z.ltb_lt in E; lia|].
      cbn. intros Heq. discriminate Heq.
Qed.

Lemma add_out_of_order_witness :
  add Element "div" 1%positive {[ 1%positive := [Part "class" "c"] ]}
  = (Throw OutOfOrderSelectorPart, {[ 1%positive := [Part "class" "c"] ]})
  /\ fst (add Attribute "x" 1%positive {[ 1%positive := [Part "class" "c"] ]})
     <> Throw OutOfOrderSelectorPart.
Proof.
  split.
  - apply (add_out_of_order Element "div" Class "c" 1%positive _ [Part "class" "c"]).
    + reflexivity.
    + reflexivity.
    + cbn. lia.
    + intros [_ (w & Hin)]. apply list_elem_of_singleton in Hin. discriminate Hin.
  - apply (add_out_of_order Attribute "x" Class "c" 1%positive _ [Part "class" "c"]).
    + reflexivity.
    + reflexivity.
    + cbn. lia.
Defined.

(** C3, counterexample. On [element('a').class('c')] the last part is a
    class and element ranks below class, yet [.element('b')] does not throw
    the out-of-order error: it throws the duplicate one. *)
Lemma element_class_element_not_out_of_order :
  snd (chain Element "a" [(Class, "c")] ∅) !! 1%positive
  = Some [Part "element" "a"; Part "class" "c"]
  /\ rank Element < rank Class
  /\ fst (add Element "b" 1%positive (snd (chain Element "a" [(Class, "c")] ∅)))
     = Throw DuplicateSelectorPart
  /\ fst (add Element "b" 1%positive (snd (chain Element "a" [(Class, "c")] ∅)))
     <> Throw OutOfOrderSelectorPart.
Proof.
  assert (H : fst (add Element "b" 1%positive (snd (chain Element "a" [(Class, "c")] ∅)))
              = Throw DuplicateSelectorPart) by (vm_compute; reflexivity).
  split; [vm_compute; reflexivity|].
  split; [cbn; lia|].
  split; [exact H|].
  rewrite H. unfold DuplicateSelectorPart, OutOfOrderSelectorPart.
  intros Heq. discriminate Heq.
Qed.

(** C5. The uniqueness test runs before the ordering test: when a call
    breaks both rules at once (the kind is element, id or pseudo-element,
    the selector already holds such a part, and the kind ranks below the
    last part's kind), the duplicate error is thrown, not the out-of-order
    one. *)
Theorem add_duplicate_before_order k v k' v' this (h : heap) storage :
  h !! this = Some storage ->
  last storage = Some (Part (tag k') v') ->
  once k = true ->
  contains k storage ->
  rank k < rank k' ->
  add k v this h = (Throw DuplicateSelectorPart, h)
  /\ DuplicateSelectorPart <> OutOfOrderSelectorPart.
Proof.
  intros Hthis _ Honce Hc _. split.
  - now rewrite (add_eq _ _ _ _ _ Hthis), (check_result_duplicate _ _ Honce Hc).
  - unfold DuplicateSelectorPart, OutOfOrderSelectorPart. intros Heq.
    discriminate Heq.
Qed.

Lemma add_duplicate_before_order_witness :
  add Element "b" 1%positive {[ 1%positive := [Part "element" "a"; Part "class" "c"] ]}
  = (Throw DuplicateSelectorPart,
     {[ 1%positive := [Part "element" "a"; Part "class" "c"] ]})
  /\ DuplicateSelectorPart <> OutOfOrderSelectorPart.
Proof.
  apply (add_duplicate_before_order Element "b" Class "c" 1%positive _
           [Part "element" "a"; Part "class" "c"]).
  - reflexivity.
  - reflexivity.
  - reflexivity.
  - exists "a". apply list_elem_of_here.
  - cbn. lia.
Defined.

(** ** Construction and chaining *)

(** C6. A facade constructor returns a fresh instance whose storage is the
    one part of its kind and value, the other instances being untouched; a
    part-adder whose check passes returns the instance it was called on,
    with the new part appended after the parts it had, and whenever a
    part-adder returns, that is what it returns. *)
Theorem create_fresh_add_same :
  (forall k v (h : heap),
      exists this,
        h !! this = None /\
        create k v h = (Normal this, <[this := [Part (tag k) v]]> h))
  /\ (forall k v this (h : heap) storage,
        h !! this = Some storage ->
        (Selector.check (tag k) this h = (Normal tt, h) ->
         add k v this h
         = (Normal this, <[this := storage ++ [Part (tag k) v]]> h))
        /\ (forall r h',
              add k v this h = (Normal r, h') ->
              r = this /\ h' = <[this := storage ++ [Part (tag k) v]]> h)).
Proof.
  split.
  - intros k v h. exists (fresh (dom h)). split.
    + apply not_elem_of_dom, is_fresh.
    + apply create_eq.
  - intros k v this h storage Hthis.
    rewrite (add_eq _ _ _ _ _ Hthis), (check_eq _ _ _ _ Hthis). split.
    + intros Hcheck. injection Hcheck as ->. reflexivity.
    + intros r h' Hadd. destruct (check_result (tag k) storage) as [[]|e].
      * injection Hadd as <- <-. split; reflexivity.
      * discriminate Hadd.
Qed.

Lemma create_fresh_add_same_witness :
  add Class "b" 1%positive {[ 1%positive := [Part "id" "a"] ]}
  = (Normal 1%positive,
     <[ 1%positive := [Part "id" "a"] ++ [Part "class" "b"] ]>
       {[ 1%positive := [Part "id" "a"] ]}).
Proof.
  refine (proj1 (proj2 create_fresh_add_same Class "b" 1%positive
                   {[ 1%positive := [Part "id" "a"] ]} [Part "id" "a"] _) _);
    reflexivity.
Defined.

(** C10. A part-adder that throws leaves the store as it was: the check
    throws before anything is pushed, so the instance holds the same parts
    and [stringify()] gives the same string as before the call. *)
Theorem add_throw_unchanged k v this (h h' : heap) e :
  add k v this h = (Throw e, h') ->
  h' = h /\ h' !! this = h !! this
  /\ stringify (Sel this) h' = stringify (Sel this) h.
Proof.
  intros Hadd.
  assert (Hh : h' = h).
  { destruct (h !! this) as [storage|] eqn:Hthis.
    - rewrite (add_eq _ _ _ _ _ Hthis) in Hadd.
      destruct (check_result (tag k) storage) as [[]|e'].
      + discriminate Hadd.
      + now injection Hadd as _ <-.
    - destruct k; cbn [add] in Hadd;
        unfold Selector.element, Selector.id, Selector.class, Selector.attr,
          Selector.pseudoClass, Selector.pseudoElement, Selector.check,
          mbind, JS_bind, bind, getStorage in Hadd;
        cbn in Hadd; rewrite ?Hthis in Hadd; cbn in Hadd;
        now injection Hadd as _ <-. }
  subst h'. repeat split.
Qed.

Lemma add_throw_unchanged_witness :
  fst (add Id "b" 1%positive {[ 1%positive := [Part "id" "a"] ]})
  = Throw DuplicateSelectorPart
  /\ snd (add Id "b" 1%positive {[ 1%positive := [Part "id" "a"] ]})
     = {[ 1%positive := [Part "id" "a"] ]}.
Proof.
  split; [reflexivity|].
  refine (proj1 (add_throw_unchanged Id "b" 1%positive
                   {[ 1%positive := [Part "id" "a"] ]}
                   (snd (add Id "b" 1%positive {[ 1%positive := [Part "id" "a"] ]}))
                   DuplicateSelectorPart _)).
  reflexivity.
Defined.

(** ** Rendering reads only *)

Lemma stringify_heap (r : renderable) (h : heap) : snd (stringify r h) = h.
Proof.
  revert h. induction r as [this|s1 IH1 c s2 IH2]; intros h.
  - cbn [stringify]. unfold Selector.stringify, mbind, JS_bind, bind, getStorage.
    destruct (h !! this); reflexivity.
  - cbn [stringify]. unfold mbind, JS_bind, bind.
    specialize (IH1 h). destruct (stringify s1 h) as [[a|e] h1]; cbn in IH1; subst h1.
    + specialize (IH2 h). destruct (stringify s2 h) as [[b|e] h2]; cbn in IH2; subst h2;
        reflexivity.
    + reflexivity.
Qed.

Lemma stringify_total (r : renderable) (h : heap) :
  live h r -> exists s, stringify r h = (Normal s, h).
Proof.
  induction r as [this|s1 IH1 c s2 IH2]; cbn [live].
  - intros [storage Hthis]. exists (fold_left Selector.stringify_item storage "").
    now apply stringify_Sel.
  - intros [H1 H2]. destruct (IH1 H1) as [a Ha]. destruct (IH2 H2) as [b Hb].
    exists (a +:+ " " +:+ c +:+ " " +:+ b).
    cbn [stringify]. unfold mbind, JS_bind, bind. now rewrite Ha, Hb.
Qed.

(** C4. [combine(selector1, combinator, selector2).stringify()] is
    [selector1.stringify() + ' ' + combinator + ' ' + selector2.stringify()]
    for every two renderables and every combinator string, which is taken
    as it is; and so at any depth:
    [combine(A, '+', combine(B, '~', C)).stringify()] is
    [A.stringify() + ' + ' + B.stringify() + ' ~ ' + C.stringify()]. *)
Theorem combine_stringify :
  (forall (selector1 selector2 : renderable) (combinator : string) (h : heap) s1 s2,
      stringify selector1 h = (Normal s1, h) ->
      stringify selector2 h = (Normal s2, h) ->
      (r ← cssSelectorBuilder.combine selector1 combinator selector2; stringify r) h
      = (Normal (s1 +:+ " " +:+ combinator +:+ " " +:+ s2), h))
  /\ (forall (A B C : renderable) (h : heap) a b c,
        stringify A h = (Normal a, h) ->
        stringify B h = (Normal b, h) ->
        stringify C h = (Normal c, h) ->
        (bc ← cssSelectorBuilder.combine B "~" C;
         r ← cssSelectorBuilder.combine A "+" bc;
         stringify r) h
        = (Normal (a +:+ " + " +:+ b +:+ " ~ " +:+ c), h)).
Proof.
  split.
  - intros selector1 selector2 combinator h s1 s2 H1 H2.
    unfold cssSelectorBuilder.combine, mbind, JS_bind, bind, mret, ret.
    cbn [stringify]. unfold mbind, JS_bind, bind. rewrite H1, H2. reflexivity.
  - intros A B C h a b c HA HB HC.
    unfold cssSelectorBuilder.combine, mbind, JS_bind, bind, mret, ret.
    cbn [stringify]. unfold mbind, JS_bind, bind. rewrite HA, HB, HC.
    reflexivity.
Qed.

Lemma combine_stringify_witness :
  (r ← cssSelectorBuilder.combine (Sel 1%positive) "+" (Sel 2%positive); stringify r)
    ({[ 1%positive := [Part "element" "div"; Part "id" "main"];
        2%positive := [Part "element" "table"; Part "id" "data"] ]} : heap)
  = (Normal "div#main + table#data",
     {[ 1%positive := [Part "element" "div"; Part "id" "main"];
        2%positive := [Part "element" "table"; Part "id" "data"] ]}).
Proof.
  apply (proj1 combine_stringify (Sel 1%positive) (Sel 2%positive) "+" _
           "div#main" "table#data"); reflexivity.
Defined.

(** C7. [combine] does not write to its arguments: the store, and with it
    the parts and the rendering of both arguments, is the same before the
    call, after it, and after [stringify()] of the combined object. *)
Theorem combine_frame (selector1 selector2 : renderable) (combinator : string) (h : heap) :
  let h1 := snd (cssSelectorBuilder.combine selector1 combinator selector2 h) in
  let h2 := snd ((r ← cssSelectorBuilder.combine selector1 combinator selector2;
                  stringify r) h) in
  h1 = h /\ h2 = h
  /\ stringify selector1 h1 = stringify selector1 h
  /\ stringify selector2 h1 = stringify selector2 h
  /\ stringify selector1 h2 = stringify selector1 h
  /\ stringify selector2 h2 = stringify selector2 h.
Proof.
  intros h1 h2.
  assert (E1 : h1 = h) by reflexivity.
  assert (E2 : h2 = h).
  { subst h2. unfold cssSelectorBuilder.combine, mbind, JS_bind, bind, mret, ret.
    apply (stringify_heap (Combined selector1 combinator selector2)). }
  rewrite E1, E2. repeat split.
Qed.

(** C9. Rendering reads only and is repeatable: [stringify()] leaves the
    store as it was, and a second call on the same instance gives the same
    result as the first; on a renderable whose instances are in the store
    both calls return the same string. *)
Theorem stringify_twice (r : renderable) (h : heap) :
  snd (stringify r h) = h
  /\ fst (stringify r (snd (stringify r h))) = fst (stringify r h)
  /\ (live h r ->
      exists s, stringify r h = (Normal s, h)
                /\ stringify r (snd (stringify r h)) = (Normal s, h)).
Proof.
  split; [apply stringify_heap|]. split; [now rewrite stringify_heap|].
  intros Hlive. destruct (stringify_total r h Hlive) as [s Hs].
  exists s. rewrite stringify_heap. split; exact Hs.
Qed.

Lemma stringify_twice_witness :
  exists s,
    stringify (Combined (Sel 1%positive) ">" (Sel 1%positive))
      {[ 1%positive := [Part "element" "a"] ]}
    = (Normal s, {[ 1%positive := [Part "element" "a"] ]})
    /\ stringify (Combined (Sel 1%positive) ">" (Sel 1%positive))
         (snd (stringify (Combined (Sel 1%positive) ">" (Sel 1%positive))
                 {[ 1%positive := [Part "element" "a"] ]}))
       = (Normal s, {[ 1%positive := [Part "element" "a"] ]}).
Proof.
  apply (proj2 (proj2 (stringify_twice (Combined (Sel 1%positive) ">" (Sel 1%positive))
                         {[ 1%positive := [Part "element" "a"] ]}))).
  split; exists [Part "element" "a"]; reflexivity.
Defined.

(** ** The instances a program can reach *)

Lemma reachable_storage (h : heap) :
  reachable h -> forall this storage, h !! this = Some storage -> storage <> [].
Proof.
  induction 1 as [|k v h Hr IH|k v this h Hr IH [st Hst]|s1 c s2 h Hr IH|r h Hr IH];
    intros l storage Hl.
  - rewrite lookup_empty in Hl. discriminate Hl.
  - rewrite create_eq in Hl. cbn [snd] in Hl.
    destruct (decide (fresh (dom h) = l)) as [<-|Hne].
    + rewrite lookup_insert_eq in Hl. injection Hl as <-. discriminate.
    + rewrite lookup_insert_ne in Hl by exact Hne. now apply (IH l).
  - rewrite (add_eq _ _ _ _ _ Hst) in Hl.
    destruct (check_result (tag k) st) as [[]|e]; cbn [snd] in Hl.
    + destruct (decide (this = l)) as [<-|Hne].
      * rewrite lookup_insert_eq in Hl. injection Hl as <-.
        intros Hnil. apply app_eq_nil in Hnil as [_ Hnil]. discriminate Hnil.
      * rewrite lookup_insert_ne in Hl by exact Hne. now apply (IH l).
    + now apply (IH l).
  - now apply (IH l).
  - rewrite stringify_heap in Hl. now apply (IH l).
Qed.

(** C8. In every store reached through the facade, the storage of every
    instance is non-empty, so [check] always finds a last part: it never
    faults on reading it. *)
Theorem check_never_faults (h : heap) this storage :
  reachable h ->
  h !! this = Some storage ->
  storage <> []
  /\ is_Some (last storage)
  /\ forall sel, fst (Selector.check sel this h) <> Throw TypeError.
Proof.
  intros Hr Hthis.
  assert (Hne : storage <> []) by exact (reachable_storage h Hr this storage Hthis).
  assert (Hlast : is_Some (last storage)) by now apply last_is_Some.
  repeat split; [exact Hne | exact Hlast |].
  intros sel. rewrite (check_eq _ _ _ _ Hthis). cbn [fst].
  destruct Hlast as [p Hp]. unfold check_result. rewrite Hp.
  destruct (_ && _); [unfold DuplicateSelectorPart; intros Heq; discriminate Heq|].
  destruct (_ <? _); intros Heq; discriminate Heq.
Qed.

Lemma check_never_faults_witness :
  [Part "id" "a"; Part "class" "b"] <> []
  /\ is_Some (last [Part "id" "a"; Part "class" "b"])
  /\ forall sel,
       fst (Selector.check sel 1%positive
              (snd (add Class "b" 1%positive (snd (create Id "a" ∅)))))
       <> Throw TypeError.
Proof.
  apply (check_never_faults
           (snd (add Class "b" 1%positive (snd (create Id "a" ∅))))
           1%positive [Part "id" "a"; Part "class" "b"]).
  - apply reach_add.
    + apply reach_create, reach_init.
    + exists [Part "id" "a"]. reflexivity.
  - reflexivity.
Defined.

(** * Further properties of the builder *)

(** ** When a part-adder returns *)

Lemma check_result_normal_iff k k' v' (storage : list part) :
  last storage = Some (Part (tag k') v') ->
  check_result (tag k) storage = Normal tt
  <-> ~ (once k = true /\ contains k storage) /\ rank k' <= rank k.
Proof.
  intros Hlast. split.
  - intros Hok. assert (Hnot : ~ (once k = true /\ contains k storage)).
    { intros [Honce Hc].
      rewrite (check_result_duplicate _ _ Honce Hc) in Hok. discriminate Hok. }
    split; [exact Hnot|].
    rewrite (check_result_order k k' v' storage Hlast Hnot) in Hok.
    destruct (rank k <? rank k') eqn:E; [discriminate Hok|].
    apply Z.ltb_ge in E. exact E.
  - intros [Hnot Hle].
    rewrite (check_result_order k k' v' storage Hlast Hnot).
    destruct (rank k <? rank k') eqn:E; [apply Z.ltb_lt in E; lia|reflexivity].
Qed.

(** X1. On an instance whose last part has kind [k'], a part-adder of kind
    [k] returns exactly when it is not a second element, id or
    pseudo-element and [k] does not rank below [k']; otherwise it throws. *)
Theorem add_normal_iff k v k' v' this (h : heap) storage :
  h !! this = Some storage ->
  last storage = Some (Part (tag k') v') ->
  (fst (add k v this h) = Normal this
   <-> ~ (once k = true /\ contains k storage) /\ rank k' <= rank k)
  /\ (fst (add k v this h) <> Normal this ->
      exists e, add k v this h = (Throw e, h)).
Proof.
  intros Hthis Hlast. rewrite (add_eq _ _ _ _ _ Hthis).
  rewrite <- (check_result_normal_iff k k' v' storage Hlast).
  destruct (check_result (tag k) storage) as [[]|e]; cbn [fst]; split.
  - split; reflexivity.
  - intros Hne. now destruct Hne.
  - split; intros Heq; discriminate Heq.
  - intros _. now exists e.
Qed.

Lemma add_normal_iff_witness :
  fst (add Class "c" 1%positive {[ 1%positive := [Part "id" "a"] ]})
  = Normal 1%positive.
Proof.
  refine (proj2 (proj1 (add_normal_iff Class "c" Id "a" 1%positive
                          {[ 1%positive := [Part "id" "a"] ]} [Part "id" "a"]
                          _ _)) _).
  - reflexivity.
  - reflexivity.
  - split.
    + intros [Honce _]. discriminate Honce.
    + cbn. lia.
Defined.

(** X2. Once the last part of an instance is a pseudo-element, every
    part-adder throws, with the duplicate or the out-of-order error, and
    the store stays as it was: nothing can follow a pseudo-element. *)
Theorem add_after_pseudoElement k v v' this (h : heap) storage :
  h !! this = Some storage ->
  last storage = Some (Part "pseudoElement" v') ->
  add k v this h = (Throw DuplicateSelectorPart, h)
  \/ add k v this h = (Throw OutOfOrderSelectorPart, h).
Proof.
  intros Hthis Hlast. rewrite (add_eq _ _ _ _ _ Hthis).
  destruct (decide (k = PseudoElement)) as [->|Hne].
  - left. rewrite check_result_duplicate; [reflexivity..|].
    exists v'. apply last_Some in Hlast as [l' ->].
    apply elem_of_app. right. now apply list_elem_of_singleton.
  - unfold check_result. rewrite Hlast. cbn [selector].
    rewrite indexOf_tag. destruct (_ && _); [now left|].
    right. destruct k; first [reflexivity | now destruct Hne].
Qed.

Lemma add_after_pseudoElement_witness :
  add Class "c" 1%positive {[ 1%positive := [Part "id" "a"; Part "pseudoElement" "after"] ]}
  = (Throw DuplicateSelectorPart,
     {[ 1%positive := [Part "id" "a"; Part "pseudoElement" "after"] ]})
  \/ add Class "c" 1%positive {[ 1%positive := [Part "id" "a"; Part "pseudoElement" "after"] ]}
     = (Throw OutOfOrderSelectorPart,
        {[ 1%positive := [Part "id" "a"; Part "pseudoElement" "after"] ]}).
Proof.
  apply (add_after_pseudoElement Class "c" "after" 1%positive _
           [Part "id" "a"; Part "pseudoElement" "after"]); reflexivity.
Defined.

(** ** The shape of every storage *)

Lemma contains_In k (calls : list (kind * string)) :
  contains k (map part_of calls) <-> In k (map fst calls).
Proof.
  unfold contains. split.
  - intros (v & Hin). apply list_elem_of_In, in_map_iff in Hin as ([k1 v1] & Heq & Hin).
    injection Heq as Ht _. apply tag_inj in Ht. subst k1.
    apply in_map_iff. now exists (k, v1).
  - intros Hin. apply in_map_iff in Hin as ([k1 v1] & Heq & Hin). cbn in Heq. subst k1.
    exists v1. apply list_elem_of_In, in_map_iff. now exists (k, v1).
Qed.

Lemma sorted_snoc (l : list Z) (x : Z) :
  Sorted Z.le l -> (forall y, last l = Some y -> y <= x) -> Sorted Z.le (l ++ [x]).
Proof.
  induction l as [|a l IH]; intros Hs Hlast.
  - cbn. apply Sorted_cons; [apply Sorted_nil | apply HdRel_nil].
  - apply Sorted_inv in Hs as [Hs Hhd]. cbn [app]. apply Sorted_cons.
    + apply IH; [exact Hs|]. intros y Hy. apply Hlast.
      destruct l; [discriminate Hy | exact Hy].
    + destruct l as [|b l]; cbn [app].
      * apply HdRel_cons. now apply Hlast.
      * apply HdRel_inv in Hhd. now apply HdRel_cons.
Qed.

Lemma well_formed_single k v : well_formed [Part (tag k) v].
Proof.
  exists [(k, v)]. split; [discriminate|]. split; [reflexivity|]. split.
  - cbn. apply Sorted_cons; [apply Sorted_nil | apply HdRel_nil].
  - intros k1 _. cbn. destruct (kind_eq_dec k k1); lia.
Qed.

Lemma well_formed_add k v (storage : list part) :
  well_formed storage ->
  check_result (tag k) storage = Normal tt ->
  well_formed (storage ++ [Part (tag k) v]).
Proof.
  intros (calls & Hne & -> & Hs & Ho) Hok.
  assert (Hl : is_Some (last calls)) by now apply last_is_Some.
  destruct Hl as [[k' v'] Hl].
  pose proof Hl as Hcalls. apply last_Some in Hcalls as [calls' Hcalls].
  assert (Hlast : last (map part_of calls) = Some (Part (tag k') v')).
  { rewrite Hcalls, map_app. apply last_snoc. }
  destruct (proj1 (check_result_normal_iff k k' v' _ Hlast) Hok) as [Hnot Hle].
  exists (calls ++ [(k, v)]). split; [now destruct calls|].
  split; [now rewrite map_app|]. split.
  - rewrite !map_app. cbn [map fst]. apply sorted_snoc; [exact Hs|].
    intros y Hy. rewrite Hcalls, !map_app in Hy. cbn [map fst] in Hy.
    rewrite last_snoc in Hy. injection Hy as <-. exact Hle.
  - intros k1 Honce. rewrite map_app, count_occ_app. cbn [map fst count_occ].
    specialize (Ho k1 Honce). destruct (kind_eq_dec k k1) as [->|Hk]; [|lia].
    assert (Hz : count_occ kind_eq_dec (map fst calls) k1 = 0%nat); [|lia].
    apply count_occ_not_In. intros Hin. apply Hnot. split; [exact Honce|].
    now apply contains_In.
Qed.

Lemma reachable_all_well_formed (h : heap) :
  reachable h -> forall this storage, h !! this = Some storage -> well_formed storage.
Proof.
  induction 1 as [|k v h Hr IH|k v this h Hr IH [st Hst]|s1 c s2 h Hr IH|r h Hr IH];
    intros l storage Hl.
  - rewrite lookup_empty in Hl. discriminate Hl.
  - rewrite create_eq in Hl. cbn [snd] in Hl.
    destruct (decide (fresh (dom h) = l)) as [<-|Hne].
    + rewrite lookup_insert_eq in Hl. injection Hl as <-. apply well_formed_single.
    + rewrite lookup_insert_ne in Hl by exact Hne. now apply (IH l).
  - rewrite (add_eq _ _ _ _ _ Hst) in Hl.
    destruct (check_result (tag k) st) as [[]|e] eqn:Hok; cbn [snd] in Hl.
    + destruct (decide (this = l)) as [<-|Hne].
      * rewrite lookup_insert_eq in Hl. injection Hl as <-.
        apply well_formed_add; [now apply (IH this) | exact Hok].
      * rewrite lookup_insert_ne in Hl by exact Hne. now apply (IH l).
    + now apply (IH l).
  - now apply (IH l).
  - rewrite stringify_heap in Hl. now apply (IH l).
Qed.

(** X3. Every instance of every store reached through the facade holds the
    parts of a non-empty list of calls whose kinds never decrease in rank
    and hold at most one element, one id and one pseudo-element; its
    [stringify()] returns, with the tokens of those calls in that order. *)
Theorem reachable_well_formed (h : heap) this storage :
  reachable h ->
  h !! this = Some storage ->
  exists calls : list (kind * string),
    calls <> []
    /\ storage = map part_of calls
    /\ Sorted Z.le (map rank (map fst calls))
    /\ (forall k, once k = true ->
                  (count_occ kind_eq_dec (map fst calls) k <= 1)%nat)
    /\ stringify (Sel this) h
       = (Normal (String.concat "" (map (fun c => token c.1 c.2) calls)), h).
Proof.
  intros Hr Hthis.
  destruct (reachable_all_well_formed h Hr this storage Hthis)
    as (calls & Hne & Heq & Hs & Ho).
  exists calls. repeat split; try assumption.
  rewrite (stringify_Sel _ _ _ Hthis), Heq. now rewrite fold_stringify_item.
Qed.

Lemma reachable_well_formed_witness :
  exists calls : list (kind * string),
    calls <> []
    /\ [Part "id" "a"; Part "class" "b"] = map part_of calls
    /\ Sorted Z.le (map rank (map fst calls))
    /\ (forall k, once k = true ->
                  (count_occ kind_eq_dec (map fst calls) k <= 1)%nat)
    /\ stringify (Sel 1%positive) (snd (add Class "b" 1%positive (snd (create Id "a" ∅))))
       = (Normal (String.concat "" (map (fun c => token c.1 c.2) calls)),
          snd (add Class "b" 1%positive (snd (create Id "a" ∅)))).
Proof.
  apply (reachable_well_formed
           (snd (add Class "b" 1%positive (snd (create Id "a" ∅))))
           1%positive [Part "id" "a"; Part "class" "b"]).
  - apply reach_add.
    + apply reach_create, reach_init.
    + exists [Part "id" "a"]. reflexivity.
  - reflexivity.
Defined.

Lemma well_formed_last (storage : list part) :
  well_formed storage ->
  exists calls k' v',
    storage = map part_of calls
    /\ last calls = Some (k', v')
    /\ last storage = Some (Part (tag k') v')
    /\ Sorted Z.le (map rank (map fst calls))
    /\ (forall k, once k = true ->
                  (count_occ kind_eq_dec (map fst calls) k <= 1)%nat).
Proof.
  intros (calls & Hne & -> & Hs & Ho).
  assert (Hl : is_Some (last calls)) by now apply last_is_Some.
  destruct Hl as [[k' v'] Hl]. exists calls, k', v'.
  repeat split; try assumption.
  apply last_Some in Hl as [calls' ->]. rewrite map_app. apply last_snoc.
Qed.

Lemma sorted_le_last (l : list Z) (y : Z) :
  Sorted Z.le l -> last l = Some y -> forall x, In x l -> x <= y.
Proof.
  induction l as [|a l IH]; intros Hs Hlast x Hin; [destruct Hin|].
  apply Sorted_inv in Hs as [Hs Hhd].
  destruct l as [|b l].
  - injection Hlast as <-. destruct Hin as [<-|[]]. lia.
  - rewrite last_cons_cons in Hlast. apply HdRel_inv in Hhd.
    destruct Hin as [<-|Hin].
    + specialize (IH Hs Hlast b (or_introl eq_refl)). lia.
    + now apply IH.
Qed.

Lemma count_occ_all (l : list kind) (a : kind) :
  (forall x, In x l -> x = a) -> count_occ kind_eq_dec l a = length l.
Proof.
  induction l as [|b l IH]; intros Hall; [reflexivity|].
  rewrite (Hall b (or_introl eq_refl)), count_occ_cons_eq by reflexivity.
  cbn [length]. f_equal. apply IH. intros x Hx. apply Hall. now right.
Qed.

(** X4. On an instance reached through the facade, the method [element]
    never returns: it throws the duplicate error when the instance holds an
    element, and the out-of-order error when it does not. *)
Theorem element_always_throws v this (h : heap) storage :
  reachable h ->
  h !! this = Some storage ->
  (contains Element storage ->
   Selector.element v this h = (Throw DuplicateSelectorPart, h))
  /\ (~ contains Element storage ->
      Selector.element v this h = (Throw OutOfOrderSelectorPart, h)).
Proof.
  intros Hr Hthis.
  pose proof (reachable_all_well_formed h Hr this storage Hthis) as Hwf.
  apply well_formed_last in Hwf as (calls & k' & v' & Heq & Hl & Hlast & _ & _).
  change (Selector.element v this h) with (add Element v this h).
  rewrite (add_eq _ _ _ _ _ Hthis). split.
  - intros Hc. now rewrite check_result_duplicate.
  - intros Hnc.
    rewrite (check_result_order Element k' v' storage Hlast) by now intros [_ Hc].
    assert (Hk : k' <> Element).
    { intros ->. apply Hnc. exists v'. apply last_Some in Hlast as [l' ->].
      apply elem_of_app. right. now apply list_elem_of_singleton. }
    destruct k'; first [reflexivity | now destruct Hk].
Qed.

Lemma element_always_throws_witness :
  Selector.element "div" 1%positive (snd (add Class "b" 1%positive (snd (create Id "a" ∅))))
  = (Throw OutOfOrderSelectorPart,
     snd (add Class "b" 1%positive (snd (create Id "a" ∅)))).
Proof.
  refine (proj2 (element_always_throws "div" 1%positive
                   (snd (add Class "b" 1%positive (snd (create Id "a" ∅))))
                   [Part "id" "a"; Part "class" "b"] _ _) _).
  - apply reach_add.
    + apply reach_create, reach_init.
    + exists [Part "id" "a"]. reflexivity.
  - reflexivity.
  - intros (w & Hin). apply list_elem_of_In in Hin.
    destruct Hin as [Hin|[Hin|[]]]; discriminate Hin.
Defined.

(** X5. On an instance reached through the facade, the method [id] returns
    exactly when the instance holds one element part and nothing else. *)
Theorem id_returns_iff v this (h : heap) storage :
  reachable h ->
  h !! this = Some storage ->
  fst (Selector.id v this h) = Normal this
  <-> exists w, storage = [Part "element" w].
Proof.
  intros Hr Hthis.
  change (Selector.id v this h) with (add Id v this h).
  rewrite (add_eq _ _ _ _ _ Hthis). split.
  - intros Hok.
    pose proof (reachable_all_well_formed h Hr this storage Hthis) as Hwf.
    apply well_formed_last in Hwf as (calls & k' & v' & Heq & Hl & Hlast & Hs & Ho).
    destruct (check_result (tag Id) storage) as [[]|e] eqn:Hc; [|discriminate Hok].
    destruct (proj1 (check_result_normal_iff Id k' v' _ Hlast) Hc) as [Hnot Hle].
    assert (Hall : forall x, In x (map fst calls) -> x = Element).
    { intros x Hx.
      assert (Hrx : rank x <= rank k').
      { apply (sorted_le_last (map rank (map fst calls)) (rank k') Hs).
        - apply last_Some in Hl as [calls' ->]. rewrite !map_app. apply last_snoc.
        - now apply in_map. }
      assert (Hid : x <> Id).
      { intros ->. apply Hnot. split; [reflexivity|]. rewrite Heq. now apply contains_In. }
      cbn in Hle. destruct x; cbn in Hrx; first [reflexivity | lia | now destruct Hid]. }
    specialize (Ho Element eq_refl). rewrite (count_occ_all _ _ Hall) in Ho.
    rewrite length_map in Ho.
    destruct calls as [|[k0 v0] [|c calls]]; [discriminate Hl | | cbn in Ho; lia].
    exists v0. rewrite Heq. cbn. unfold part_of. cbn.
    now rewrite (Hall k0 (or_introl eq_refl)).
  - intros [w ->]. reflexivity.
Qed.

Lemma id_returns_iff_witness :
  fst (Selector.id "main" 1%positive (snd (create Element "div" ∅))) = Normal 1%positive.
Proof.
  refine (proj2 (id_returns_iff "main" 1%positive (snd (create Element "div" ∅))
                   [Part "element" "div"] _ _) _).
  - apply reach_create, reach_init.
  - reflexivity.
  - now exists "div".
Defined.

(** ** What a part-adder changes, and what it leaves alone *)

Lemma add_heap_cases k v this (h : heap) :
  snd (add k v this h) = h
  \/ exists storage,
       h !! this = Some storage
       /\ add k v this h = (Normal this, <[this := storage ++ [Part (tag k) v]]> h).
Proof.
  destruct (h !! this) as [storage|] eqn:Hthis.
  - rewrite (add_eq _ _ _ _ _ Hthis).
    destruct (check_result (tag k) storage) as [[]|e]; [right|left; reflexivity].
    now exists storage.
  - left. destruct k; cbn [add];
      unfold Selector.element, Selector.id, Selector.class, Selector.attr,
        Selector.pseudoClass, Selector.pseudoElement, Selector.check,
        mbind, JS_bind, bind, getStorage;
      cbn; rewrite ?Hthis; reflexivity.
Qed.

Lemma add_lookup_other k v this l (h : heap) :
  l <> this -> snd (add k v this h) !! l = h !! l.
Proof.
  intros Hne. destruct (add_heap_cases k v this h) as [->|(st & _ & ->)];
    [reflexivity|]. cbn [snd]. now apply lookup_insert_ne.
Qed.

Lemma stringify_agree (r : renderable) (h1 h2 : heap) :
  (forall l, refers r l -> h1 !! l = h2 !! l) ->
  fst (stringify r h1) = fst (stringify r h2).
Proof.
  induction r as [this|s1 IH1 c s2 IH2]; intros Hag.
  - cbn [stringify]. unfold Selector.stringify, mbind, JS_bind, bind, getStorage.
    rewrite (Hag this eq_refl). destruct (h2 !! this); reflexivity.
  - cbn [stringify]. unfold mbind, JS_bind, bind.
    assert (E1 := IH1 (fun l Hl => Hag l (or_introl Hl))).
    assert (E2 := IH2 (fun l Hl => Hag l (or_intror Hl))).
    pose proof (stringify_heap s1 h1) as F1. pose proof (stringify_heap s1 h2) as F2.
    destruct (stringify s1 h1) as [r1 g1], (stringify s1 h2) as [r2 g2].
    cbn in E1, F1, F2. subst g1 g2 r2. destruct r1 as [a|e]; [|reflexivity].
    destruct (stringify s2 h1) as [q1 g1], (stringify s2 h2) as [q2 g2].
    cbn in E2. subst q2. destruct q1; reflexivity.
Qed.


Lemma add_stringify_append_eq k v this r (h h' : heap) s :
  add k v this h = (Normal r, h') ->
  stringify (Sel this) h = (Normal s, h) ->
  stringify (Sel this) h' = (Normal (s +:+ token k v), h').
Proof.
  intros Hadd Hs.
  destruct (h !! this) as [storage|] eqn:Hthis.
  - rewrite (stringify_Sel _ _ _ Hthis) in Hs. injection Hs as <-.
    rewrite (add_eq _ _ _ _ _ Hthis) in Hadd.
    destruct (check_result (tag k) storage) as [[]|e]; [|discriminate Hadd].
    injection Hadd as _ <-.
    rewrite (stringify_Sel this _ (storage ++ [Part (tag k) v]))
      by apply lookup_insert_eq.
    rewrite fold_left_app. cbn [fold_left]. now rewrite stringify_item_token.
  - cbn [stringify] in Hs.
    unfold Selector.stringify, mbind, JS_bind, bind, getStorage in Hs.
    rewrite Hthis in Hs. discriminate Hs.
Qed.

(** X6. A part-adder that returns extends the rendering of its instance by
    the token of the new part: [stringify()] afterwards is [stringify()]
    before, followed by that token. *)
Theorem add_stringify_append k v this r (h h' : heap) s :
  add k v this h = (Normal r, h') ->
  stringify (Sel this) h = (Normal s, h) ->
  r = this /\ stringify (Sel this) h' = (Normal (s +:+ token k v), h').
Proof.
  intros Hadd Hs. split; [|now apply (add_stringify_append_eq k v this r h)].
  destruct (add_heap_cases k v this h) as [Hh|(st & _ & Heq)].
  - destruct (h !! this) as [storage|] eqn:Hthis.
    + rewrite (add_eq _ _ _ _ _ Hthis) in Hadd.
      destruct (check_result (tag k) storage) as [[]|e]; [|discriminate Hadd].
      now injection Hadd as <- _.
    + cbn [stringify] in Hs.
      unfold Selector.stringify, mbind, JS_bind, bind, getStorage in Hs.
      rewrite Hthis in Hs. discriminate Hs.
  - rewrite Heq in Hadd. now injection Hadd as <- _.
Qed.

Lemma add_stringify_append_witness :
  stringify (Sel 1%positive)
    (<[ 1%positive := [Part "id" "a"] ++ [Part (tag Attribute) "x=1"] ]>
       {[ 1%positive := [Part "id" "a"] ]})
  = (Normal "#a[x=1]",
     <[ 1%positive := [Part "id" "a"] ++ [Part (tag Attribute) "x=1"] ]>
       {[ 1%positive := [Part "id" "a"] ]}).
Proof.
  refine (proj2 (add_stringify_append Attribute "x=1" 1%positive 1%positive
                   {[ 1%positive := [Part "id" "a"] ]} _ "#a" _ _)); reflexivity.
Defined.

(** X7. A part-adder touches its own instance only: every other instance
    keeps its parts, and every renderable that does not reach the instance
    renders as before, whether the adder returns or throws. *)
Theorem add_frame k v this (h : heap) (r : renderable) :
  ~ refers r this ->
  (forall l, l <> this -> snd (add k v this h) !! l = h !! l)
  /\ fst (stringify r (snd (add k v this h))) = fst (stringify r h).
Proof.
  intros Hnr. split.
  - intros l Hne. now apply add_lookup_other.
  - apply stringify_agree. intros l Hl. apply add_lookup_other.
    intros ->. now apply Hnr.
Qed.

Lemma add_frame_witness :
  fst (stringify (Sel 2%positive)
         (snd (add Class "c" 1%positive
                 {[ 1%positive := [Part "id" "a"]; 2%positive := [Part "element" "p"] ]})))
  = Normal "p".
Proof.
  refine (eq_trans
            (proj2 (add_frame Class "c" 1%positive
                      {[ 1%positive := [Part "id" "a"]; 2%positive := [Part "element" "p"] ]}
                      (Sel 2%positive) _)) _).
  - cbn. discriminate.
  - reflexivity.
Defined.



(** ** Combined objects keep references *)



(** X10. The rendering of a combined object does not show how it was
    nested: grouping to the left and grouping to the right give the same
    [stringify()], in every store. *)
Theorem combine_stringify_flat (A B C : renderable) (c1 c2 : string) (h : heap) :
  (ab ← cssSelectorBuilder.combine A c1 B;
   r ← cssSelectorBuilder.combine ab c2 C;
   stringify r) h
  = (bc ← cssSelectorBuilder.combine B c2 C;
     r ← cssSelectorBuilder.combine A c1 bc;
     stringify r) h.
Proof.
  unfold cssSelectorBuilder.combine, mbind, JS_bind, bind, mret, ret.
  cbn [stringify]. unfold mbind, JS_bind, bind, mret, JS_ret, ret.
  pose proof (stringify_heap A h) as HA.
  destruct (stringify A h) as [[a|e] g]; cbn in HA; subst g; [|reflexivity].
  pose proof (stringify_heap B h) as HB.
  destruct (stringify B h) as [[b|e] g]; cbn in HB; subst g; [|reflexivity].
  pose proof (stringify_heap C h) as HC.
  destruct (stringify C h) as [[c|e] g]; cbn in HC; subst g; [|reflexivity].
  f_equal. f_equal. rewrite !append_assoc. reflexivity.
Qed.

(** ** Chains that throw part of the way *)



(** ** Every well-formed storage is built by some chain *)

Lemma reachable_add_all (calls : list (kind * string)) this (h : heap) :
  reachable h -> is_Some (h !! this) -> reachable (snd (add_all calls this h)).
Proof.
  revert h. induction calls as [|[k v] calls IH]; intros h Hr Hthis; [exact Hr|].
  cbn [add_all]. unfold mbind, JS_bind, bind.
  pose proof (reach_add k v this h Hr Hthis) as Hr'.
  destruct (add_heap_cases k v this h) as [Hh|(st & Hst & Heq)].
  - destruct (add k v this h) as [[r|e] h'] eqn:Ha; cbn [snd] in *; [|exact Hr'].
    subst h'. destruct Hthis as [st Hst]. rewrite (add_eq _ _ _ _ _ Hst) in Ha.
    destruct (check_result (tag k) st) as [[]|e]; [|discriminate Ha].
    injection Ha as <- _. now apply IH.
  - rewrite Heq in Hr' |- *. cbn [snd] in Hr'. apply IH; [exact Hr'|].
    rewrite lookup_insert_eq. eauto.
Qed.

(** X12. The shape is exact: every storage made of the parts of a
    non-empty list of calls with kinds of non-decreasing rank and at most
    one element, id and pseudo-element is the storage of an instance in a
    store reached through the facade, built by the chain of those calls. *)
Theorem well_formed_reachable k0 v0 (calls : list (kind * string)) :
  Sorted Z.le (map rank (k0 :: map fst calls)) ->
  (forall k, once k = true ->
             (count_occ kind_eq_dec (k0 :: map fst calls) k <= 1)%nat) ->
  well_formed (map part_of ((k0, v0) :: calls))
  /\ reachable (snd (chain k0 v0 calls ∅))
  /\ exists this,
       fst (chain k0 v0 calls ∅) = Normal this
       /\ snd (chain k0 v0 calls ∅) !! this = Some (map part_of ((k0, v0) :: calls)).
Proof.
  intros Hs Ho. split; [|split].
  - exists ((k0, v0) :: calls). repeat split; [discriminate | exact Hs | exact Ho].
  - unfold chain, mbind, JS_bind, bind. rewrite create_eq.
    apply reachable_add_all.
    + pose proof (reach_create k0 v0 ∅ reach_init) as Hc.
      rewrite create_eq in Hc. exact Hc.
    + rewrite lookup_insert_eq. eauto.
  - exists (fresh (dom (∅ : heap))).
    unfold chain, mbind, JS_bind, bind. rewrite create_eq.
    rewrite (add_all_ok calls _ _ [Part (tag k0) v0] k0 v0).
    + cbn [fst snd]. split; [reflexivity|]. rewrite insert_insert_eq.
      apply lookup_insert_eq.
    + apply lookup_insert_eq.
    + reflexivity.
    + exact Hs.
    + intros k Honce (w & Hin). apply list_elem_of_singleton in Hin.
      injection Hin as Ht _. apply tag_inj in Ht. subst k0.
      specialize (Ho k Honce). cbn [map] in Ho.
      rewrite count_occ_cons_eq in Ho by reflexivity. lia.
    + intros k Honce. specialize (Ho k Honce).
      destruct (decide (k0 = k)) as [->|Hne].
      * rewrite count_occ_cons_eq in Ho by reflexivity. lia.
      * now rewrite count_occ_cons_neq in Ho.
Qed.

Lemma well_formed_reachable_witness :
  well_formed (map part_of [(Element, "a"); (Class, "b"); (Class, "c")])
  /\ reachable (snd (chain Element "a" [(Class, "b"); (Class, "c")] ∅))
  /\ exists this,
       fst (chain Element "a" [(Class, "b"); (Class, "c")] ∅) = Normal this
       /\ snd (chain Element "a" [(Class, "b"); (Class, "c")] ∅) !! this
          = Some (map part_of [(Element, "a"); (Class, "b"); (Class, "c")]).
Proof.
  apply (well_formed_reachable Element "a" [(Class, "b"); (Class, "c")]).
  - cbn. solve_sorted.
  - intros k Honce. destruct k; try discriminate Honce; cbn; lia.
Defined.
